(** * Bond valuation engine of bond-yield-calculator

    Shallow embedding of [backend/src/bond-calculator/bond-calculator.service.ts]
    ([BondCalculatorService]), and of the parts of the React frontend that
    consume its result: [ResultsDisplay], [CashFlowTable], the
    [useBondCalculator] hook and the results column of [App].  JavaScript numbers are modelled as exact real
    numbers: the development is about the algorithm over ideal arithmetic,
    binary64 rounding is abstracted away.

    - [Math.pow x y] is [Rpower x y] (only used with [x = 1 + r], [r >= 0]);
    - [Math.abs] is [Rabs];
    - [Math.round x] is [floor (x + 1/2)] (JavaScript rounds ties up);
    - a loop [for (t = 1; t <= bound; t++)] with a real [bound] runs once for
      every integer [t] with [1 <= t <= bound], that is [floor bound] times
      (see [loop_count] and [loop_count_spec]). *)

From Stdlib Require Import String.
From Stdlib Require Import Reals Lra Lia List.
From Stdlib Require Import Sorting.Sorted.
Import ListNotations.
Open Scope R_scope.

(** ** JavaScript numeric primitives *)

Definition Math_pow (x y : R) : R := Rpower x y.
Definition Math_abs (x : R) : R := Rabs x.
Definition Math_round (x : R) : R := IZR (Int_part (x + / 2)).

(** Number of iterations of [for (t = 1; t <= bound; t++)]. *)
Definition loop_count (bound : R) : nat := Z.to_nat (Int_part bound).

(** ** Data model ([interfaces/bond.interface.ts]) *)

Record BondInput := mkBondInput {
  faceValue : R;
  annualCouponRate : R;
  marketPrice : R;
  yearsToMaturity : R;
  couponFrequency : R
}.

(** The constraints of [CalculateBondDto] (class-validator decorators),
    checked by the HTTP layer before the service runs. *)
Definition valid_input (i : BondInput) : Prop :=
  0 < faceValue i /\
  0 <= annualCouponRate i <= 100 /\
  0 < marketPrice i /\
  0 < yearsToMaturity i <= 100 /\
  (couponFrequency i = 1 \/ couponFrequency i = 2).

Inductive PremiumDiscount := premium | discount | par.

Record CashFlowEntry := mkCashFlowEntry {
  period : nat;
  (** [paymentDate] is [today] plus this many months; the calendar
      arithmetic and ISO formatting of [Date] are not modelled. *)
  paymentMonthsAhead : R;
  couponPayment : R;
  cumulativeInterest : R;
  remainingPrincipal : R
}.

Record BondCalculationResult := mkBondCalculationResult {
  currentYield : R;
  yieldToMaturity : R;
  totalInterestEarned : R;
  premiumDiscount : PremiumDiscount;
  premiumDiscountAmount : R;
  cashFlowSchedule : list CashFlowEntry
}.

(** ** calculateCurrentYield *)

Definition calculateCurrentYield (input : BondInput) : R :=
  let annualCoupon := faceValue input * (annualCouponRate input / 100) in
  annualCoupon / marketPrice input.

(** ** calculatePriceAndDerivative *)

(** The coupon loop [for (let t = 1; t <= totalPeriods; t++)]: [t] is the
    current period, [remaining] the iterations still to run. *)
Fixpoint price_deriv_loop (yield_ couponPerPeriod : R) (t remaining : nat)
    (price derivative : R) : R * R :=
  match remaining with
  | O => (price, derivative)
  | S remaining' =>
      let discountFactor := Math_pow (1 + yield_) (INR t) in
      price_deriv_loop yield_ couponPerPeriod (S t) remaining'
        (price + couponPerPeriod / discountFactor)
        (derivative - (INR t * couponPerPeriod) / (discountFactor * (1 + yield_)))
  end.

(** Returns [(price, derivative)]. *)
Definition calculatePriceAndDerivative
    (yield_ couponPerPeriod faceValue totalPeriods : R) : R * R :=
  let '(price, derivative) :=
    price_deriv_loop yield_ couponPerPeriod 1 (loop_count totalPeriods) 0 0 in
  let finalDiscountFactor := Math_pow (1 + yield_) totalPeriods in
  (price + faceValue / finalDiscountFactor,
   derivative - (totalPeriods * faceValue) / (finalDiscountFactor * (1 + yield_))).

(** ** calculateYTM *)

Definition maxIterations : nat := 100.
Definition tolerance : R := 1e-10.

(** How the [for] loop of [calculateYTM] was left: by [break] on
    convergence, or by running out of iterations. *)
Inductive LoopExit := Converged | Exhausted.

Section NewtonLoop.
Variables couponPerPeriod faceValue marketPrice totalPeriods : R.

(** One pass of the loop body that does not [break]: Newton update and
    the reset of a negative guess. *)
Definition newton_update (ytmGuess price derivative : R) : R :=
  let priceDiff := price - marketPrice in
  let g := ytmGuess - priceDiff / derivative in
  if Rlt_dec g 0 then 0.0001 else g.

(** [for (let i = 0; i < maxIterations; i++) { ... }] with [fuel] the
    iterations left. *)
Fixpoint ytm_loop (fuel : nat) (ytmGuess : R) : R * LoopExit :=
  match fuel with
  | O => (ytmGuess, Exhausted)
  | S fuel' =>
      let '(price, derivative) :=
        calculatePriceAndDerivative ytmGuess couponPerPeriod faceValue totalPeriods in
      let priceDiff := price - marketPrice in
      if Rlt_dec (Math_abs priceDiff) tolerance then (ytmGuess, Converged)
      else ytm_loop fuel' (newton_update ytmGuess price derivative)
  end.
End NewtonLoop.

Definition ytm_run (input : BondInput) : R * LoopExit :=
  let totalPeriods := yearsToMaturity input * couponFrequency input in
  let couponPerPeriod :=
    (faceValue input * (annualCouponRate input / 100)) / couponFrequency input in
  let ytmGuess := calculateCurrentYield input / couponFrequency input in
  ytm_loop couponPerPeriod (faceValue input) (marketPrice input) totalPeriods
    maxIterations ytmGuess.

Definition calculateYTM (input : BondInput) : R :=
  fst (ytm_run input) * couponFrequency input.

(** ** calculateTotalInterest *)

Definition calculateTotalInterest (input : BondInput) : R :=
  let annualCoupon := faceValue input * (annualCouponRate input / 100) in
  annualCoupon * yearsToMaturity input.

(** ** calculatePremiumDiscount *)

Definition calculatePremiumDiscount (input : BondInput) : PremiumDiscount * R :=
  let difference := marketPrice input - faceValue input in
  let tol := 0.01 in
  if Rlt_dec (Math_abs difference) tol then (par, 0)
  else if Rlt_dec 0 difference then (premium, difference)
  else (discount, Math_abs difference).

(** ** generateCashFlowSchedule *)

Section Schedule.
Variables faceValue couponPerPeriod totalPeriods monthsPerPeriod : R.

(** [for (let period = 1; period <= totalPeriods; period++)] pushing one
    entry per pass; [cumulative] is the [let cumulativeInterest]. *)
Fixpoint schedule_loop (period remaining : nat) (cumulative : R)
    : list CashFlowEntry :=
  match remaining with
  | O => []
  | S remaining' =>
      let cumulative' := cumulative + couponPerPeriod in
      {| period := period;
         paymentMonthsAhead := INR period * monthsPerPeriod;
         couponPayment := Math_round (couponPerPeriod * 100) / 100;
         cumulativeInterest := Math_round (cumulative' * 100) / 100;
         remainingPrincipal :=
           if Req_EM_T (INR period) totalPeriods then 0 else faceValue |}
      :: schedule_loop (S period) remaining' cumulative'
  end.
End Schedule.

Definition generateCashFlowSchedule (input : BondInput) : list CashFlowEntry :=
  let totalPeriods := yearsToMaturity input * couponFrequency input in
  let couponPerPeriod :=
    (faceValue input * (annualCouponRate input / 100)) / couponFrequency input in
  let monthsPerPeriod := 12 / couponFrequency input in
  schedule_loop (faceValue input) couponPerPeriod totalPeriods monthsPerPeriod
    1 (loop_count totalPeriods) 0.

(** ** calculateBond *)

Definition calculateBond (input : BondInput) : BondCalculationResult :=
  let '(status, amount) := calculatePremiumDiscount input in
  {| currentYield := calculateCurrentYield input;
     yieldToMaturity := calculateYTM input;
     totalInterestEarned := calculateTotalInterest input;
     premiumDiscount := status;
     premiumDiscountAmount := amount;
     cashFlowSchedule := generateCashFlowSchedule input |}.

(** * Auxiliary definitions and sample bonds *)

Definition round2 (x : R) : R := Math_round (x * 100) / 100.

(** A pass that does not converge and resets the guess to the floor. *)
Definition step_resets (C F p n r : R) : Prop :=
  let '(price, derivative) := calculatePriceAndDerivative r C F n in
  ~ Math_abs (price - p) < tolerance /\ newton_update p r price derivative = 0.0001.

Definition sum_list (l : list R) : R := fold_right Rplus 0 l.

(** The bond of the counterexample to C4: a coupon of 0.004 per period. *)
Definition small_coupon_bond : BondInput := mkBondInput 1 0.4 1 3 1.

(** A bond of 2.5 years paying annually: [totalPeriods] is 2.5. *)
Definition fractional_bond : BondInput := mkBondInput 1000 5 950 2.5 1.

(** A one-year annual bond with coupon rate 5 and face value 1000 priced
    at [p]. *)
Definition one_year_bond (p : R) : BondInput := mkBondInput 1000 5 p 1 1.

(** A zero-coupon bond of one year with face value [2 ^ 110] bought at 1. *)
Definition huge_face_bond : BondInput := mkBondInput (2 ^ 110) 0 1 1 1.

(** A par bond of half a year paying annually: [totalPeriods = 0.5], so the
    coupon loop never runs and [price = F / sqrt (1 + r)]. *)
Definition half_year_par_bond : BondInput := mkBondInput 100 5 100 0.5 1.

(** The scenario of the specification: face value 1000, 5% coupon, price
    950, 10 years, semi-annual. *)
Definition sample_bond : BondInput := mkBondInput 1000 5 950 10 2.

(** A par bond of one year paying annually: at the first guess, the coupon
    rate, its single payment [105] discounts exactly to the price [100]. *)
Definition one_period_par_bond : BondInput := mkBondInput 100 5 100 1 1.

(** One-year zero-coupon bonds of face value 1: at par the first guess 0
    already prices it; at [1 - 10^-6] the second guess [10^-6] does. *)
Definition zero_coupon_par : BondInput := mkBondInput 1 0 1 1 1.
Definition zero_coupon_discount : BondInput := mkBondInput 1 0 (999999 / 1000000) 1 1.

(** * The solver as the specification describes it *)

(** The algorithm of C1 written from the claim's words: with [n] periods,
    coupon [C] and face value [F],
    [P(r) = sum_{t=1..n} C/(1+r)^t + F/(1+r)^n] and
    [P'(r) = -sum_{t=1..n} t*C/(1+r)^(t+1) - n*F/(1+r)^(n+1)], the sums
    ranging over the whole numbers [t] with [1 <= t <= n]. *)
Module SpecYTM.
Definition sum (l : list R) : R := fold_right Rplus 0 l.

Definition periods (n : R) : list nat := seq 1 (Z.to_nat (Int_part n)).

Definition P (C F n r : R) : R :=
  sum (map (fun t => C / Rpower (1 + r) (INR t)) (periods n)) +
  F / Rpower (1 + r) n.

Definition dP (C F n r : R) : R :=
  - sum (map (fun t => INR t * C / Rpower (1 + r) (INR t + 1)) (periods n)) -
  n * F / Rpower (1 + r) (n + 1).

(** At most [k] iterations: stop when [|P(r) - price| < 1e-10], otherwise
    take the Newton step and reset a negative result to 0.0001. *)
Fixpoint iterate (C F price n : R) (k : nat) (r : R) : R :=
  match k with
  | O => r
  | S k' =>
      if Rlt_dec (Rabs (P C F n r - price)) 1e-10 then r
      else
        let r' := r - (P C F n r - price) / dP C F n r in
        iterate C F price n k' (if Rlt_dec r' 0 then 0.0001 else r')
  end.

Definition ytm (i : BondInput) : R :=
  let n := yearsToMaturity i * couponFrequency i in
  let C := faceValue i * (annualCouponRate i / 100) / couponFrequency i in
  let r0 := (faceValue i * annualCouponRate i / 100 / marketPrice i) /
            couponFrequency i in
  iterate C (faceValue i) (marketPrice i) n 100 r0 * couponFrequency i.
End SpecYTM.

(** * Frontend: [ResultsDisplay] ([frontend/src/components/ResultsDisplay.tsx]) *)

(** [getPremiumDiscountClass]: the style of the Bond Status card. *)
Definition getPremiumDiscountClass (result : BondCalculationResult) : string :=
  match premiumDiscount result with
  | premium => "status-premium"%string
  | discount => "status-discount"%string
  | _ => "status-par"%string
  end.

(** The description line of the Bond Status card,
    [{result.premiumDiscountAmount > 0 && (<p> sign amount </p>)}]: absent
    unless the amount is positive, otherwise its sign
    ([result.premiumDiscount === 'premium' ? '+' : '-']) and the amount
    passed to [formatCurrency] (the currency formatting is not modelled). *)
Definition statusAmountLine (result : BondCalculationResult) : option (string * R) :=
  if Rlt_dec 0 (premiumDiscountAmount result) then
    Some (match premiumDiscount result with
          | premium => "+"%string
          | _ => "-"%string
          end, premiumDiscountAmount result)
  else None.

(** * Frontend: [CashFlowTable] *)

(** The row class [entry.remainingPrincipal === 0 ? 'maturity-row' : ''],
    which also selects the Maturity badge of the last column. *)
Definition isMaturityRow (entry : CashFlowEntry) : bool :=
  if Req_EM_T (remainingPrincipal entry) 0 then true else false.

(** The summary's
    [schedule[schedule.length - 1]?.cumulativeInterest || 0]: the last
    entry's cumulative interest, 0 for an empty schedule (index [-1] is
    [undefined]); [|| 0] only maps the falsy 0 to 0. *)
Definition tableTotalInterest (schedule : list CashFlowEntry) : R :=
  match nth_error schedule (length schedule - 1) with
  | Some entry => cumulativeInterest entry
  | None => 0
  end.

(** * Frontend: the [useBondCalculator] hook and the panels of [App] *)

(** The keys of [BondInput] that [updateInput] takes as [field]. *)
Inductive BondField :=
  | FfaceValue | FannualCouponRate | FmarketPrice | FyearsToMaturity
  | FcouponFrequency.

(** [{ ...prev, [field]: value }]. *)
Definition set_field (prev : BondInput) (field : BondField) (value : R) : BondInput :=
  match field with
  | FfaceValue =>
      mkBondInput value (annualCouponRate prev) (marketPrice prev)
        (yearsToMaturity prev) (couponFrequency prev)
  | FannualCouponRate =>
      mkBondInput (faceValue prev) value (marketPrice prev)
        (yearsToMaturity prev) (couponFrequency prev)
  | FmarketPrice =>
      mkBondInput (faceValue prev) (annualCouponRate prev) value
        (yearsToMaturity prev) (couponFrequency prev)
  | FyearsToMaturity =>
      mkBondInput (faceValue prev) (annualCouponRate prev) (marketPrice prev)
        value (couponFrequency prev)
  | FcouponFrequency =>
      mkBondInput (faceValue prev) (annualCouponRate prev) (marketPrice prev)
        (yearsToMaturity prev) value
  end.

Definition defaultInput : BondInput := mkBondInput 1000 5 950 10 2.

(** The four [useState] cells of the hook. *)
Record HookState := mkHookState {
  input : BondInput;
  result : option BondCalculationResult;
  isLoading : bool;
  error : option string
}.

Definition initialHookState : HookState := mkHookState defaultInput None false None.

Definition updateInput (s : HookState) (field : BondField) (value : R) : HookState :=
  mkHookState (set_field (input s) field value) (result s) (isLoading s) None.

(** What [calculateBond(input)] of [api/bondApi.ts] settles with: a
    response, or a thrown value, an [Error] with its [message] or anything
    else. *)
Inductive Thrown := ErrorValue (message : string) | OtherValue.
Inductive ApiOutcome := Resolved (r : BondCalculationResult) | Rejected (t : Thrown).

(** [setIsLoading(true); setError(null);] before the [await]. *)
Definition calculate_start (s : HookState) : HookState :=
  mkHookState (input s) (result s) true None.

(** The [try]/[catch] after the [await], then [finally]. *)
Definition calculate_settle (s : HookState) (outcome : ApiOutcome) : HookState :=
  let s' :=
    match outcome with
    | Resolved r => mkHookState (input s) (Some r) (isLoading s) (error s)
    | Rejected t =>
        let message := match t with
                       | ErrorValue m => m
                       | OtherValue => "Calculation failed"%string
                       end in
        mkHookState (input s) None (isLoading s) (Some message)
    end in
  mkHookState (input s') (result s') false (error s').

(** [reset] leaves [isLoading] alone. *)
Definition reset (s : HookState) : HookState :=
  mkHookState defaultInput None (isLoading s) None.

(** The transitions of the hook.  The user may edit a field or press
    Reset at any time, also while a request is pending (only the submit
    button is disabled while [isLoading]).  Submitting, which runs
    [calculate] up to its [await], is possible only when [isLoading] is
    false.  The pending request settles (the code after the [await]) only
    while [isLoading] is true: [isLoading] is set by [calculate] alone and
    cleared by its [finally], so it is true exactly while the one request
    is pending.  The state updates before the [await] and those after it
    each happen in one synchronous run, which React 18 batches into one
    update. *)
Inductive hook_step : HookState -> HookState -> Prop :=
  | step_updateInput (s : HookState) (field : BondField) (value : R) :
      hook_step s (updateInput s field value)
  | step_reset (s : HookState) : hook_step s (reset s)
  | step_calculate (s : HookState) :
      isLoading s = false -> hook_step s (calculate_start s)
  | step_settle (s : HookState) (outcome : ApiOutcome) :
      isLoading s = true -> hook_step s (calculate_settle s outcome).

Inductive reachable : HookState -> Prop :=
  | reachable_init : reachable initialHookState
  | reachable_step (s s' : HookState) : reachable s -> hook_step s s' -> reachable s'.

(** The panels of the results column of [App]. *)
Inductive Panel := ErrorPanel | LoadingPanel | ResultsPanel | EmptyPanel.

(** JavaScript truthiness of [error] (the empty string is falsy) and of
    [result] (an object is truthy). *)
Definition error_truthy (s : HookState) : bool :=
  match error s with
  | Some m => negb (String.eqb m EmptyString)
  | None => false
  end.

Definition result_truthy (s : HookState) : bool :=
  match result s with
  | Some _ => true
  | None => false
  end.

(** [{error && ...}], [{isLoading && ...}], [{result && !isLoading && ...}]
    and [{!result && !isLoading && !error && ...}], in this order. *)
Definition appPanels (s : HookState) : list Panel :=
  (if error_truthy s then [ErrorPanel] else []) ++
  (if isLoading s then [LoadingPanel] else []) ++
  (if (result_truthy s && negb (isLoading s))%bool then [ResultsPanel] else []) ++
  (if (negb (result_truthy s) && negb (isLoading s) && negb (error_truthy s))%bool
   then [EmptyPanel] else []).

(** * Basic facts about the primitives *)

Lemma Math_pow_pos (x y : R) : 0 < Math_pow x y.
Proof. unfold Math_pow, Rpower. apply exp_pos. Qed.

Lemma Math_pow_INR (x : R) (n : nat) : 0 < x -> Math_pow x (INR n) = x ^ n.
Proof. intros Hx. unfold Math_pow. now apply Rpower_pow. Qed.

(** [loop_count] is the number of passes of [for (t = 1; t <= bound; t++)]. *)
Lemma loop_count_spec (bound : R) (t : nat) :
  (1 <= t)%nat -> (INR t <= bound <-> (t <= loop_count bound)%nat).
Proof.
  intros Ht. unfold loop_count.
  destruct (base_Int_part bound) as [Hlo Hhi].
  rewrite INR_IZR_INZ. split.
  - intros Hle.
    assert (Hz : (Z.of_nat t <= Int_part bound)%Z).
    { apply Z.lt_succ_r. apply lt_IZR. rewrite succ_IZR. lra. }
    lia.
  - intros Hle.
    assert (Hz : (Z.of_nat t <= Int_part bound)%Z) by lia.
    apply IZR_le in Hz. lra.
Qed.

Lemma loop_count_INR (k : nat) : loop_count (INR k) = k.
Proof.
  unfold loop_count, Int_part.
  rewrite <- (tech_up (INR k) (Z.of_nat k + 1)).
  - lia.
  - rewrite plus_IZR, <- INR_IZR_INZ. lra.
  - rewrite plus_IZR, <- INR_IZR_INZ. lra.
Qed.

Lemma Math_abs_pos_lt (x tol : R) : tol <= x -> 0 < tol -> ~ Math_abs x < tol.
Proof. unfold Math_abs. intros. rewrite Rabs_right by lra. lra. Qed.

Lemma Math_abs_neg_lt (x tol : R) : x <= - tol -> 0 < tol -> ~ Math_abs x < tol.
Proof. unfold Math_abs. intros. rewrite Rabs_left by lra. lra. Qed.

(** * Facts about the Newton loop *)

Lemma newton_update_nonneg (p r price derivative : R) :
  0 <= newton_update p r price derivative.
Proof.
  unfold newton_update.
  destruct (Rlt_dec _ 0); lra.
Qed.

Lemma ytm_loop_nonneg (C F p n : R) (fuel : nat) (r : R) :
  0 <= r -> 0 <= fst (ytm_loop C F p n fuel r).
Proof.
  revert r. induction fuel as [|fuel IH]; intros r Hr; simpl.
  - exact Hr.
  - destruct (calculatePriceAndDerivative r C F n) as [price derivative].
    destruct (Rlt_dec _ tolerance).
    + exact Hr.
    + apply IH, newton_update_nonneg.
Qed.

Lemma initial_guess_nonneg (i : BondInput) :
  valid_input i -> 0 <= calculateCurrentYield i / couponFrequency i.
Proof.
  intros (HF & Hc & Hp & Hy & Hf).
  assert (Hf0 : 0 < couponFrequency i) by (destruct Hf as [-> | ->]; lra).
  unfold calculateCurrentYield.
  apply Rmult_le_pos; [apply Rmult_le_pos|].
  - apply Rmult_le_pos; [lra|]. apply Rmult_le_pos; [lra|].
    left. apply Rinv_0_lt_compat. lra.
  - left. now apply Rinv_0_lt_compat.
  - left. now apply Rinv_0_lt_compat.
Qed.

(** * Claims *)

(** C8: the premium/discount classification.  With [diff = marketPrice -
    faceValue]: [|diff| < 0.01] gives [par] with amount 0, otherwise a
    positive [diff] gives [premium] with amount [diff], otherwise [discount]
    with amount [|diff|]; the amount is never negative and is 0 for [par]. *)
Theorem premium_discount_classification (i : BondInput) :
  let diff := marketPrice i - faceValue i in
  (Rabs diff < 0.01 -> calculatePremiumDiscount i = (par, 0)) /\
  (~ Rabs diff < 0.01 -> 0 < diff -> calculatePremiumDiscount i = (premium, diff)) /\
  (~ Rabs diff < 0.01 -> ~ 0 < diff ->
     calculatePremiumDiscount i = (discount, Rabs diff)) /\
  0 <= snd (calculatePremiumDiscount i) /\
  (fst (calculatePremiumDiscount i) = par -> snd (calculatePremiumDiscount i) = 0).
Proof.
  cbv zeta. unfold calculatePremiumDiscount, Math_abs. cbv zeta.
  set (d := marketPrice i - faceValue i).
  destruct (Rlt_dec (Rabs d) 0.01) as [Hpar|Hpar];
    [|destruct (Rlt_dec 0 d) as [Hpos|Hpos]]; simpl;
    repeat split; intros; try contradiction; try discriminate; try reflexivity;
    try lra; apply Rabs_pos.
Qed.

(** C9: the yield to maturity returned by [calculateYTM] is never negative:
    the initial guess is non-negative and every Newton update that would go
    negative is reset to 0.0001 within the same pass. *)
Theorem calculateYTM_nonneg (i : BondInput) :
  valid_input i -> 0 <= calculateYTM i.
Proof.
  intros Hv. unfold calculateYTM, ytm_run.
  pose proof (initial_guess_nonneg i Hv) as H0.
  destruct Hv as (_ & _ & _ & _ & Hf).
  apply Rmult_le_pos.
  - now apply ytm_loop_nonneg.
  - destruct Hf as [-> | ->]; lra.
Qed.

(** * Facts about the schedule loop *)

Lemma Int_part_spec (x : R) (z : Z) : IZR z <= x < IZR z + 1 -> Int_part x = z.
Proof.
  intros [Hlo Hhi]. unfold Int_part.
  rewrite <- (tech_up x (z + 1)); [lia| |]; rewrite plus_IZR; lra.
Qed.

Lemma schedule_loop_length (F C n m : R) (start rem : nat) (cum : R) :
  length (schedule_loop F C n m start rem cum) = rem.
Proof.
  revert start cum. induction rem as [|rem IH]; intros start cum; simpl.
  - reflexivity.
  - now rewrite IH.
Qed.

Lemma schedule_loop_principal (F C n m : R) (start rem : nat) (cum : R) :
  map remainingPrincipal (schedule_loop F C n m start rem cum) =
  map (fun p => if Req_EM_T (INR p) n then 0 else F) (seq start rem).
Proof.
  revert start cum. induction rem as [|rem IH]; intros start cum; simpl.
  - reflexivity.
  - now rewrite IH.
Qed.

Lemma schedule_loop_coupon (F C n m : R) (start rem : nat) (cum : R) :
  map couponPayment (schedule_loop F C n m start rem cum) = repeat (round2 C) rem.
Proof.
  revert start cum. induction rem as [|rem IH]; intros start cum; simpl.
  - reflexivity.
  - now rewrite IH.
Qed.

Lemma schedule_loop_cumulative (F C n m : R) (start rem : nat) (cum : R) :
  map cumulativeInterest (schedule_loop F C n m start rem cum) =
  map (fun j => round2 (cum + INR j * C)) (seq 1 rem).
Proof.
  revert start cum. induction rem as [|rem IH]; intros start cum; simpl.
  - reflexivity.
  - rewrite IH, <- (seq_shift rem 1), map_map. f_equal.
    + unfold round2. do 3 f_equal. lra.
    + apply map_ext. intros j. unfold round2. rewrite S_INR. do 3 f_equal. lra.
Qed.

Lemma schedule_length (i : BondInput) :
  length (generateCashFlowSchedule i) =
  loop_count (yearsToMaturity i * couponFrequency i).
Proof. apply schedule_loop_length. Qed.

(** [loop_count] of a positive bound is its integer part. *)
Lemma loop_count_floor (n : R) :
  0 < n -> INR (loop_count n) <= n < INR (loop_count n) + 1.
Proof.
  intros Hn. split.
  - destruct (loop_count n) as [|k] eqn:E.
    + simpl. lra.
    + apply (loop_count_spec n (S k)); [lia|]. rewrite E. lia.
  - rewrite <- S_INR. apply Rnot_le_lt. intros Hle.
    apply (loop_count_spec n (S (loop_count n))) in Hle; lia.
Qed.

Lemma valid_periods_pos (i : BondInput) :
  valid_input i -> 0 < yearsToMaturity i * couponFrequency i.
Proof.
  intros (_ & _ & _ & Hy & Hf).
  destruct Hf as [-> | ->]; lra.
Qed.

(** * Tactics *)

(** Evaluates the first [Int_part] of the goal, given its value. *)
Ltac int_part_at z :=
  match goal with
  | |- context [Int_part ?x] => rewrite (Int_part_spec x z) by lra
  end.

(** Closes an equality of two explicit lists of reals elementwise. *)
Ltac list_reals_eq :=
  match goal with
  | |- @nil R = @nil R => reflexivity
  | |- ?a :: _ = ?b :: _ => replace a with b by lra; f_equal; list_reals_eq
  end.

Lemma small_coupon_bond_schedule :
  map couponPayment (generateCashFlowSchedule small_coupon_bond) = [0; 0; 0] /\
  map cumulativeInterest (generateCashFlowSchedule small_coupon_bond) = [0; 0.01; 0.01].
Proof.
  assert (Hn : loop_count (3 * 1) = 3%nat).
  { replace (3 * 1) with (INR 3) by (simpl; lra). apply loop_count_INR. }
  unfold generateCashFlowSchedule. simpl yearsToMaturity. simpl couponFrequency.
  rewrite Hn. split.
  - rewrite schedule_loop_coupon. simpl. unfold round2, Math_round.
    rewrite (Int_part_spec (1 * (0.4 / 100) / 1 * 100 + / 2) 0) by lra.
    list_reals_eq.
  - rewrite schedule_loop_cumulative. simpl. unfold round2, Math_round.
    int_part_at 0%Z. int_part_at 1%Z. int_part_at 1%Z.
    list_reals_eq.
Qed.

Lemma map_const_repeat {A B : Type} (b : B) (l : list A) :
  map (fun _ => b) l = repeat b (length l).
Proof. induction l as [|a l IH]; simpl; [reflexivity | now rewrite IH]. Qed.

Lemma fractional_bond_valid : valid_input fractional_bond.
Proof. unfold valid_input; simpl; lra. Qed.

Lemma fractional_bond_loop_count : loop_count (2.5 * 1) = 2%nat.
Proof.
  unfold loop_count. rewrite (Int_part_spec _ 2) by lra. reflexivity.
Qed.

Lemma fractional_bond_principal :
  map remainingPrincipal (generateCashFlowSchedule fractional_bond) = [1000; 1000].
Proof.
  unfold generateCashFlowSchedule. simpl yearsToMaturity. simpl couponFrequency.
  rewrite fractional_bond_loop_count, schedule_loop_principal. simpl.
  destruct (Req_EM_T 1 (2.5 * 1)); [lra|].
  destruct (Req_EM_T (1 + 1) (2.5 * 1)); [lra|].
  reflexivity.
Qed.

(** C2 (counterexample): for 2.5 years paid annually, the period count of
    the code is [2.5], which is not [round 2.5 = 3], and the schedule has 2
    entries, neither 3 nor 2.5. *)
Lemma fractional_periods_not_rounded :
  let n := yearsToMaturity fractional_bond * couponFrequency fractional_bond in
  valid_input fractional_bond /\ Math_round n = 3 /\ n <> Math_round n /\
  length (generateCashFlowSchedule fractional_bond) = 2%nat /\
  INR (length (generateCashFlowSchedule fractional_bond)) <> n.
Proof.
  cbv zeta. simpl yearsToMaturity. simpl couponFrequency.
  assert (Hr : Math_round (2.5 * 1) = 3).
  { unfold Math_round. rewrite (Int_part_spec _ 3) by lra. reflexivity. }
  rewrite schedule_length. simpl yearsToMaturity. simpl couponFrequency.
  rewrite fractional_bond_loop_count, Hr.
  split; [apply fractional_bond_valid|]. simpl. repeat split; lra.
Qed.

(** C2 (amended): the period count [totalPeriods] of the code is
    [yearsToMaturity * couponFrequency], not rounded; the schedule has one
    entry per integer period [1 <= period <= totalPeriods], so its length is
    the integer part of [totalPeriods], and exactly [totalPeriods] when that
    is a whole number. *)
Theorem schedule_length_floor (i : BondInput) :
  valid_input i ->
  let n := yearsToMaturity i * couponFrequency i in
  let s := generateCashFlowSchedule i in
  INR (length s) <= n < INR (length s) + 1 /\
  (forall k : nat, n = INR k -> length s = k).
Proof.
  intros Hv. cbv zeta. rewrite schedule_length. split.
  - apply loop_count_floor, valid_periods_pos, Hv.
  - intros k Hk. rewrite Hk. apply loop_count_INR.
Qed.

(** C3 (counterexample): for 2.5 years paid annually both schedule entries
    keep the full principal; the last one is not 0. *)
Lemma fractional_last_principal_not_zero :
  valid_input fractional_bond /\
  map remainingPrincipal (generateCashFlowSchedule fractional_bond) = [1000; 1000].
Proof. split; [apply fractional_bond_valid | apply fractional_bond_principal]. Qed.

(** C3 (amended): when [totalPeriods = yearsToMaturity * couponFrequency] is
    a whole number [k], the schedule's remaining principals are [faceValue]
    for the first [k - 1] entries and 0 for the last; when it is not a whole
    number, every entry reports [faceValue] and none reports 0. *)
Theorem schedule_principal (i : BondInput) :
  valid_input i ->
  let n := yearsToMaturity i * couponFrequency i in
  let s := generateCashFlowSchedule i in
  (forall k : nat, n = INR k ->
     map remainingPrincipal s = repeat (faceValue i) (k - 1) ++ [0]) /\
  ((forall k : nat, n <> INR k) ->
     map remainingPrincipal s = repeat (faceValue i) (length s)).
Proof.
  intros Hv. cbv zeta. unfold generateCashFlowSchedule.
  rewrite schedule_loop_principal, schedule_loop_length. split.
  - intros k Hk. rewrite Hk, loop_count_INR.
    assert (Hk1 : (1 <= k)%nat).
    { destruct k; [|lia]. pose proof (valid_periods_pos i Hv). simpl in Hk. lra. }
    replace k with (S (k - 1)) at 1 by lia.
    rewrite seq_S, map_app.
    replace (1 + (k - 1))%nat with k by lia. cbn [map].
    destruct (Req_EM_T (INR k) (INR k)) as [_|Hne]; [|now contradiction Hne].
    f_equal.
    transitivity (map (fun _ => faceValue i) (seq 1 (k - 1))).
    2: now rewrite map_const_repeat, length_seq.
    apply map_ext_in. intros p Hp. apply in_seq in Hp.
    destruct (Req_EM_T (INR p) (INR k)) as [He|_]; [|reflexivity].
    apply INR_eq in He. lia.
  - intros Hnot.
    transitivity (map (fun _ => faceValue i) (seq 1 (loop_count (yearsToMaturity i * couponFrequency i)))).
    2: now rewrite map_const_repeat, length_seq.
    apply map_ext. intros p.
    destruct (Req_EM_T (INR p) _) as [He|_]; [|reflexivity].
    exfalso. apply (Hnot p). now rewrite He.
Qed.

Lemma schedule_coupons (i : BondInput) :
  let C := (faceValue i * (annualCouponRate i / 100)) / couponFrequency i in
  let s := generateCashFlowSchedule i in
  map couponPayment s = repeat (round2 C) (length s) /\
  map cumulativeInterest s = map (fun j => round2 (INR j * C)) (seq 1 (length s)).
Proof.
  cbv zeta. unfold generateCashFlowSchedule.
  rewrite schedule_loop_coupon, schedule_loop_cumulative, schedule_loop_length.
  split; [reflexivity|].
  apply map_ext. intros j. f_equal. lra.
Qed.

Lemma small_coupon_bond_valid : valid_input small_coupon_bond.
Proof. unfold valid_input; simpl; lra. Qed.

Lemma round2_zero : round2 0 = 0.
Proof.
  unfold round2, Math_round. rewrite (Int_part_spec _ 0) by lra. lra.
Qed.

(** C4 (counterexample): for a coupon of 0.004 per period, the second
    entry's [cumulativeInterest] is 0.01, while the rounded sum of the two
    rounded coupons shown (0 and 0) is 0. *)
Lemma cumulative_not_sum_of_rounded :
  let s := generateCashFlowSchedule small_coupon_bond in
  valid_input small_coupon_bond /\
  nth 1 (map cumulativeInterest s) 0 <>
  round2 (nth 0 (map couponPayment s) 0 + nth 1 (map couponPayment s) 0).
Proof.
  cbv zeta. destruct small_coupon_bond_schedule as [Hc Hcum].
  rewrite Hc, Hcum. simpl. rewrite Rplus_0_r, round2_zero.
  split; [apply small_coupon_bond_valid | lra].
Qed.

(** C4 (amended): every entry's [couponPayment] is [couponPerPeriod]
    rounded to 2 decimals, and the [cumulativeInterest] of the [k]-th entry
    is the unrounded running total [k * couponPerPeriod] rounded once to 2
    decimals: the rounded coupons are not what is accumulated. *)
Theorem schedule_rounding (i : BondInput) :
  let C := (faceValue i * (annualCouponRate i / 100)) / couponFrequency i in
  let s := generateCashFlowSchedule i in
  map couponPayment s = repeat (round2 C) (length s) /\
  map cumulativeInterest s = map (fun k => round2 (INR k * C)) (seq 1 (length s)).
Proof. apply schedule_coupons. Qed.

(** C10: the [cumulativeInterest] of the [k]-th entry is [k *
    couponPerPeriod] rounded once to 2 decimals (the accumulator is never
    rounded), and there are valid bonds where it differs from the sum of the
    displayed rounded [couponPayment] values of the first [k] entries. *)
Theorem cumulative_rounded_once :
  (forall i : BondInput,
     let C := (faceValue i * (annualCouponRate i / 100)) / couponFrequency i in
     let s := generateCashFlowSchedule i in
     map cumulativeInterest s = map (fun k => round2 (INR k * C)) (seq 1 (length s))) /\
  (exists (i : BondInput) (k : nat),
     let s := generateCashFlowSchedule i in
     valid_input i /\ (k < length s)%nat /\
     nth k (map cumulativeInterest s) 0 <>
     sum_list (firstn (S k) (map couponPayment s))).
Proof.
  split.
  - intros i. apply schedule_coupons.
  - exists small_coupon_bond, 1%nat. cbv zeta.
    destruct small_coupon_bond_schedule as [Hc Hcum].
    rewrite <- (length_map cumulativeInterest), Hc, Hcum. simpl.
    split; [apply small_coupon_bond_valid|]. split; [lia|]. lra.
Qed.

(** * The Newton loop on one-period bonds *)

Lemma loop_count_1 : loop_count 1 = 1%nat.
Proof. exact (loop_count_INR 1). Qed.

(** With [totalPeriods = 1] the bond pays [C + F] once. *)
Lemma one_period_price_deriv (r C F : R) :
  0 <= r ->
  calculatePriceAndDerivative r C F 1 =
  ((C + F) / (1 + r), - (C + F) / ((1 + r) * (1 + r))).
Proof.
  intros Hr. unfold calculatePriceAndDerivative.
  rewrite loop_count_1. simpl price_deriv_loop.
  simpl INR. unfold Math_pow. rewrite !Rpower_1 by lra.
  f_equal; field; lra.
Qed.

Lemma one_period_newton_step (p r G : R) :
  0 <= r -> 0 < G ->
  r - (G / (1 + r) - p) / (- G / ((1 + r) * (1 + r))) =
  1 + 2 * r - p * (1 + r) * (1 + r) / G.
Proof. intros Hr HG. field. lra. Qed.

Lemma ytm_loop_step_resets (C F p n : R) (fuel : nat) (r : R) :
  step_resets C F p n r ->
  ytm_loop C F p n (S fuel) r = ytm_loop C F p n fuel 0.0001.
Proof.
  unfold step_resets. simpl.
  destruct (calculatePriceAndDerivative r C F n) as [price derivative].
  intros [Hnc Hupd]. destruct (Rlt_dec _ tolerance); [contradiction|].
  now rewrite Hupd.
Qed.

(** Once a guess is reset to 0.0001 and the pass from 0.0001 resets it
    again, the loop stays at the floor until the iterations run out. *)
Lemma ytm_loop_floor (C F p n : R) (fuel : nat) :
  step_resets C F p n 0.0001 ->
  ytm_loop C F p n fuel 0.0001 = (0.0001, Exhausted).
Proof.
  intros Hs. induction fuel as [|fuel IH].
  - reflexivity.
  - now rewrite ytm_loop_step_resets.
Qed.

(** A one-period bond priced at least [tolerance] above its single payment
    [C + F] resets every non-negative guess. *)
Lemma one_period_premium_resets (C F p r : R) :
  0 <= C -> 0 < F -> tolerance <= p - (C + F) -> 0 <= r ->
  step_resets C F p 1 r.
Proof.
  intros HC HF Hp Hr. unfold tolerance in Hp.
  unfold step_resets. rewrite one_period_price_deriv by exact Hr. split.
  - apply Math_abs_neg_lt; [|unfold tolerance; lra].
    unfold tolerance.
    assert ((C + F) / (1 + r) <= C + F).
    { unfold Rdiv. rewrite <- (Rmult_1_r (C + F)) at 2.
      apply Rmult_le_compat_l; [lra|].
      rewrite <- Rinv_1. apply Rinv_le_contravar; lra. }
    lra.
  - unfold newton_update. rewrite one_period_newton_step by lra.
    destruct (Rlt_dec _ 0) as [_|Hge]; [reflexivity|].
    exfalso. apply Hge.
    assert (Hq : (1 + r) * (1 + r) < p * (1 + r) * (1 + r) / (C + F)).
    { replace (p * (1 + r) * (1 + r) / (C + F)) with
        ((1 + r) * (1 + r) + (p - (C + F)) * ((1 + r) * (1 + r)) / (C + F))
        by (field; lra).
      assert (0 < (p - (C + F)) * ((1 + r) * (1 + r)) / (C + F)); [|lra].
      unfold Rdiv. apply Rmult_lt_0_compat; [nra|].
      apply Rinv_0_lt_compat. lra. }
    nra.
Qed.

Lemma one_period_premium_run (i : BondInput) :
  valid_input i ->
  yearsToMaturity i * couponFrequency i = 1 ->
  tolerance <= marketPrice i -
    (faceValue i + (faceValue i * (annualCouponRate i / 100)) / couponFrequency i) ->
  ytm_run i = (0.0001, Exhausted).
Proof.
  intros Hv Hn Hp. pose proof (initial_guess_nonneg i Hv) as H0.
  destruct Hv as (HF & Hc & Hmp & Hy & Hf).
  assert (HC : 0 <= (faceValue i * (annualCouponRate i / 100)) / couponFrequency i).
  { destruct Hf as [-> | ->]; unfold Rdiv; apply Rmult_le_pos; try lra;
      apply Rmult_le_pos; lra. }
  unfold ytm_run. rewrite Hn. unfold maxIterations.
  rewrite ytm_loop_step_resets.
  - apply ytm_loop_floor, one_period_premium_resets; lra.
  - apply one_period_premium_resets; lra.
Qed.

Lemma le_div_of_mul_le (a b c : R) : 0 < b -> c * b <= a -> c <= a / b.
Proof.
  intros Hb H. apply (Rmult_le_reg_r b); [exact Hb|].
  unfold Rdiv. rewrite Rmult_assoc, Rinv_l, Rmult_1_r by lra. exact H.
Qed.

Lemma one_year_bond_valid (p : R) : 0 < p -> valid_input (one_year_bond p).
Proof. intros Hp. unfold valid_input; simpl; lra. Qed.

Lemma one_year_bond_premium (p : R) :
  1051 <= p -> calculateYTM (one_year_bond p) = 0.0001.
Proof.
  intros Hp. unfold calculateYTM.
  rewrite one_period_premium_run.
  - simpl. lra.
  - apply one_year_bond_valid. lra.
  - simpl. lra.
  - simpl. unfold tolerance. lra.
Qed.

(** C6 (counterexample): at market prices 1100 and 1200 the one-year bond
    with face value 1000 and a 5% coupon gets the same yield 0.0001; the
    higher price does not give a strictly lower yield. *)
Lemma ytm_not_strictly_decreasing :
  valid_input (one_year_bond 1100) /\ valid_input (one_year_bond 1200) /\
  ~ calculateYTM (one_year_bond 1200) < calculateYTM (one_year_bond 1100).
Proof.
  split; [apply one_year_bond_valid; lra|].
  split; [apply one_year_bond_valid; lra|].
  rewrite !one_year_bond_premium by lra. lra.
Qed.

(** * The derivative and the zero-coupon case *)

Lemma price_deriv_loop_deriv_le (r C : R) (t rem : nat) (p d : R) :
  0 <= C -> 0 <= r -> snd (price_deriv_loop r C t rem p d) <= d.
Proof.
  intros HC Hr. revert t p d.
  induction rem as [|rem IH]; intros t p d; simpl.
  - lra.
  - specialize (IH (S t) (p + C / Math_pow (1 + r) (INR t))
                  (d - INR t * C / (Math_pow (1 + r) (INR t) * (1 + r)))).
    assert (0 <= INR t * C / (Math_pow (1 + r) (INR t) * (1 + r))); [|lra].
    unfold Rdiv. apply Rmult_le_pos.
    + apply Rmult_le_pos; [apply pos_INR | exact HC].
    + left. apply Rinv_0_lt_compat.
      apply Rmult_lt_0_compat; [apply Math_pow_pos | lra].
Qed.

Lemma derivative_negative (r C F n : R) :
  0 <= C -> 0 < F -> 0 < n -> 0 <= r ->
  snd (calculatePriceAndDerivative r C F n) < 0.
Proof.
  intros HC HF Hn Hr. unfold calculatePriceAndDerivative.
  pose proof (price_deriv_loop_deriv_le r C 1 (loop_count n) 0 0 HC Hr) as Hd.
  destruct (price_deriv_loop r C 1 (loop_count n) 0 0) as [price d]. simpl in *.
  assert (0 < n * F / (Math_pow (1 + r) n * (1 + r))); [|lra].
  apply Rdiv_lt_0_compat; [nra|].
  apply Rmult_lt_0_compat; [apply Math_pow_pos | lra].
Qed.

(** C7 (amended): the service raises no error: at every guess [r >= 0]
    (every guess the solver reaches is [>= 0], see C9) the derivative
    computed by [calculatePriceAndDerivative] is strictly negative, so the
    Newton division is well defined; for a zero-coupon bond
    [totalInterestEarned] is 0.  Convergence within the 100 iterations is
    not guaranteed (see [zero_coupon_not_converged]). *)
Theorem solver_derivative_negative (i : BondInput) :
  valid_input i ->
  let n := yearsToMaturity i * couponFrequency i in
  let C := (faceValue i * (annualCouponRate i / 100)) / couponFrequency i in
  (forall r : R, 0 <= r -> snd (calculatePriceAndDerivative r C (faceValue i) n) < 0) /\
  (annualCouponRate i = 0 -> calculateTotalInterest i = 0).
Proof.
  intros Hv. pose proof (valid_periods_pos i Hv) as Hn.
  destruct Hv as (HF & Hc & Hp & Hy & Hf). cbv zeta. split.
  - intros r Hr. apply derivative_negative; try lra.
    destruct Hf as [-> | ->]; unfold Rdiv; apply Rmult_le_pos; try lra;
      apply Rmult_le_pos; lra.
  - intros H0. unfold calculateTotalInterest. rewrite H0. cbv zeta. lra.
Qed.

Lemma solver_derivative_negative_witness :
  valid_input (one_year_bond 950) /\
  snd (calculatePriceAndDerivative 0
         ((faceValue (one_year_bond 950) * (annualCouponRate (one_year_bond 950) / 100))
            / couponFrequency (one_year_bond 950))
         (faceValue (one_year_bond 950))
         (yearsToMaturity (one_year_bond 950) * couponFrequency (one_year_bond 950))) < 0.
Proof.
  split; [apply one_year_bond_valid; lra|].
  apply (proj1 (solver_derivative_negative (one_year_bond 950)
                  (one_year_bond_valid 950 ltac:(lra)))).
  lra.
Defined.

(** Newton on a one-period zero-coupon bond priced at 1 with a face value
    [F >= 1024 * B]: while [(1 + r) * 2 ^ k <= B], the guess at most
    doubles [1 + r] per pass and the price [F / (1 + r)] stays above
    [1024], so the [k] remaining passes never converge. *)
Lemma zero_coupon_exhausts (F B : R) (k : nat) (r : R) :
  1 <= B -> 1024 * B <= F -> 0 <= r -> (1 + r) * 2 ^ k <= B ->
  snd (ytm_loop 0 F 1 1 k r) = Exhausted.
Proof.
  intros HB HF. revert r.
  induction k as [|k IH]; intros r Hr Hk; [reflexivity|].
  assert (H2k : 1 <= 2 ^ k) by (apply pow_R1_Rle; lra).
  change (2 ^ S k) with (2 * 2 ^ k) in Hk.
  assert (Hx : 1 + r <= B) by nra.
  simpl ytm_loop. rewrite one_period_price_deriv by exact Hr.
  rewrite Rplus_0_l.
  assert (Hpr : 1024 <= F / (1 + r)).
  { apply le_div_of_mul_le; [lra|]. nra. }
  destruct (Rlt_dec _ tolerance) as [Hc|_].
  { exfalso. revert Hc. apply Math_abs_pos_lt; unfold tolerance; lra. }
  unfold newton_update.
  replace (- F / ((1 + r) * (1 + r))) with (- (0 + F) / ((1 + r) * (1 + r)))
    by (rewrite Rplus_0_l; reflexivity).
  replace (F / (1 + r)) with ((0 + F) / (1 + r)) by (rewrite Rplus_0_l; reflexivity).
  rewrite one_period_newton_step by lra.
  rewrite Rplus_0_l.
  set (q := 1 * (1 + r) * (1 + r) / F).
  assert (Hq : q * F = (1 + r) * (1 + r)) by (unfold q; field; lra).
  assert (Hq0 : 0 <= q) by nra.
  assert (Hq1 : 1024 * q <= 1 + r) by nra.
  destruct (Rlt_dec _ 0) as [Hneg|_]; [lra|].
  apply IH; [lra|]. nra.
Qed.

(** C7 (counterexample): for this valid zero-coupon bond priced below face
    value, the solver runs all 100 iterations without meeting the
    tolerance: it does not converge. *)
Lemma zero_coupon_not_converged :
  valid_input huge_face_bond /\ annualCouponRate huge_face_bond = 0 /\
  marketPrice huge_face_bond < faceValue huge_face_bond /\
  snd (ytm_run huge_face_bond) = Exhausted.
Proof.
  assert (HB : 1 <= 2 ^ 100) by (apply pow_R1_Rle; lra).
  assert (HF : 2 ^ 110 = 1024 * 2 ^ 100).
  { replace 110%nat with (10 + 100)%nat by reflexivity.
    rewrite pow_add. simpl. lra. }
  split; [unfold valid_input; simpl; lra|].
  split; [reflexivity|]. split; [simpl; lra|].
  unfold ytm_run, calculateCurrentYield, huge_face_bond.
  cbn [faceValue annualCouponRate marketPrice yearsToMaturity couponFrequency].
  replace (1 * 1) with 1 by lra.
  replace (2 ^ 110 * (0 / 100) / 1) with 0 by (unfold Rdiv; ring).
  replace (0 / 1 / 1) with 0 by (unfold Rdiv; ring).
  apply (zero_coupon_exhausts (2 ^ 110) (2 ^ 100)); try lra.
  unfold maxIterations. lra.
Qed.

(** * Par bonds *)

Lemma ytm_loop_S (C F p n : R) (fuel : nat) (r : R) :
  ytm_loop C F p n (S fuel) r =
  let '(price, derivative) := calculatePriceAndDerivative r C F n in
  if Rlt_dec (Math_abs (price - p)) tolerance then (r, Converged)
  else ytm_loop C F p n fuel (newton_update p r price derivative).
Proof. reflexivity. Qed.

Lemma price_deriv_loop_S (r C : R) (t rem : nat) (p d : R) :
  price_deriv_loop r C t (S rem) p d =
  price_deriv_loop r C (S t) rem
    (p + C / Math_pow (1 + r) (INR t))
    (d - (INR t * C) / (Math_pow (1 + r) (INR t) * (1 + r))).
Proof. reflexivity. Qed.

(** With [couponPerPeriod = F * r] the discounted coupons of periods
    [t + 1 .. t + rem] plus [F] discounted over [t + rem] periods equal [F]
    discounted over [t] periods. *)
Lemma par_price_loop (r F : R) (rem t : nat) (acc d : R) :
  0 <= r ->
  fst (price_deriv_loop r (F * r) (S t) rem acc d) + F / (1 + r) ^ (t + rem) =
  acc + F / (1 + r) ^ t.
Proof.
  intros Hr. revert t acc d.
  induction rem as [|rem IH]; intros t acc d.
  - simpl price_deriv_loop. rewrite Nat.add_0_r. reflexivity.
  - rewrite price_deriv_loop_S, <- Nat.add_succ_comm, IH.
    rewrite Math_pow_INR by lra. simpl pow.
    assert (Hp : (1 + r) ^ t <> 0) by (apply pow_nonzero; lra).
    field. split; [exact Hp | lra].
Qed.

Lemma par_price (r F : R) (k : nat) :
  0 <= r -> fst (calculatePriceAndDerivative r (F * r) F (INR k)) = F.
Proof.
  intros Hr. unfold calculatePriceAndDerivative. rewrite loop_count_INR.
  pose proof (par_price_loop r F k 0 0 0 Hr) as H.
  destruct (price_deriv_loop r (F * r) 1 k 0 0) as [price d]. simpl in *.
  rewrite Math_pow_INR by lra. lra.
Qed.

(** C5 (amended): for a valid bond priced exactly at par whose period count
    [yearsToMaturity * couponFrequency] is a whole number, the solver
    converges on its first pass and returns exactly [annualCouponRate / 100]. *)
Theorem par_bond_yield_is_coupon_rate (i : BondInput) :
  valid_input i -> marketPrice i = faceValue i ->
  (exists k : nat, yearsToMaturity i * couponFrequency i = INR k) ->
  calculateYTM i = annualCouponRate i / 100 /\ snd (ytm_run i) = Converged.
Proof.
  intros Hv Hpar [k Hk].
  pose proof (initial_guess_nonneg i Hv) as H0.
  destruct Hv as (HF & Hc & Hp & Hy & Hf).
  assert (Hf0 : couponFrequency i <> 0) by (destruct Hf as [-> | ->]; lra).
  set (r0 := calculateCurrentYield i / couponFrequency i) in H0.
  assert (HC : (faceValue i * (annualCouponRate i / 100)) / couponFrequency i =
               faceValue i * r0).
  { unfold r0, calculateCurrentYield. rewrite Hpar. field. lra. }
  assert (Hrun : ytm_run i = (r0, Converged)).
  { unfold ytm_run. fold r0. rewrite Hk, HC, Hpar.
    change maxIterations with (S 99). rewrite ytm_loop_S.
    pose proof (par_price r0 (faceValue i) k H0) as Hprice.
    destruct (calculatePriceAndDerivative r0 (faceValue i * r0) (faceValue i) (INR k))
      as [price d].
    simpl in Hprice. rewrite Hprice, Rminus_diag.
    destruct (Rlt_dec _ tolerance) as [_|Hn]; [reflexivity|].
    exfalso. apply Hn. unfold Math_abs, tolerance. rewrite Rabs_R0. lra. }
  unfold calculateYTM. rewrite Hrun. simpl. split; [|reflexivity].
  unfold r0, calculateCurrentYield. rewrite Hpar. field. lra.
Qed.

Lemma par_bond_yield_is_coupon_rate_witness :
  valid_input (mkBondInput 1000 5 1000 5 1) /\
  calculateYTM (mkBondInput 1000 5 1000 5 1) = 5 / 100.
Proof.
  split; [unfold valid_input; simpl; lra|].
  apply (par_bond_yield_is_coupon_rate (mkBondInput 1000 5 1000 5 1)).
  - unfold valid_input; simpl; lra.
  - reflexivity.
  - exists 5%nat. simpl. lra.
Defined.

Lemma half_period_price_deriv (r C F : R) :
  0 <= r ->
  calculatePriceAndDerivative r C F (0.5 * 1) =
  (0 + F / sqrt (1 + r), 0 - 0.5 * 1 * F / (sqrt (1 + r) * (1 + r))).
Proof.
  intros Hr. unfold calculatePriceAndDerivative.
  replace (loop_count (0.5 * 1)) with 0%nat
    by (unfold loop_count; rewrite (Int_part_spec _ 0) by lra; reflexivity).
  simpl price_deriv_loop.
  replace (Math_pow (1 + r) (0.5 * 1)) with (sqrt (1 + r)).
  - reflexivity.
  - unfold Math_pow. rewrite <- Rpower_sqrt by lra. f_equal. lra.
Qed.

(** If [b > 1], [b * b < 1 + r], [100 / b <= 100 - tolerance] and the
    Newton step with [sqrt (1 + r)] replaced by [b] is negative, the pass
    from [r] of a half-year par bond with face value 100 resets the guess. *)
Lemma half_year_par_resets (C r b : R) :
  0 <= r -> 1 < b -> b * b < 1 + r -> 100 <= (100 - tolerance) * b ->
  r + 2 * (1 + r) * (1 - b) < 0 ->
  step_resets C 100 100 (0.5 * 1) r.
Proof.
  intros Hr Hb Hbb Hgap Hstep. unfold tolerance in Hgap. unfold step_resets.
  rewrite half_period_price_deriv by exact Hr.
  pose proof (sqrt_lt_R0 (1 + r) ltac:(lra)) as Hs0.
  pose proof (sqrt_sqrt (1 + r) ltac:(lra)) as Hss.
  set (s := sqrt (1 + r)) in *. clearbody s.
  assert (Hsb : b < s) by nra.
  split.
  - apply Math_abs_neg_lt; unfold tolerance; [|lra].
    set (q := 100 / s).
    assert (Hq : q * s = 100) by (unfold q; field; lra).
    assert (Hlt : q * s < (100 - 1e-10) * s) by nra.
    apply Rmult_lt_reg_r in Hlt; [|exact Hs0]. lra.
  - unfold newton_update.
    replace (r - (0 + 100 / s - 100) / (0 - 0.5 * 1 * 100 / (s * (1 + r))))
      with (r + 2 * (1 + r) * (1 - s))
      by (replace 0.5 with (/ 2) by lra; field; lra).
    destruct (Rlt_dec _ 0) as [_|Hn]; [reflexivity|].
    exfalso. apply Hn. nra.
Qed.

(** C5 (counterexample): the half-year bond priced at par with a 5% coupon
    gets the yield 0.0001, not the coupon rate 0.05: the first Newton step
    from 0.05 goes negative and every later step from the floor 0.0001 does
    too. *)
Lemma half_year_par_yield_not_coupon_rate :
  valid_input half_year_par_bond /\
  marketPrice half_year_par_bond = faceValue half_year_par_bond /\
  calculateYTM half_year_par_bond = 0.0001 /\
  ~ Rabs (calculateYTM half_year_par_bond - annualCouponRate half_year_par_bond / 100)
      < tolerance.
Proof.
  assert (Hrun : ytm_run half_year_par_bond = (0.0001, Exhausted)).
  { unfold ytm_run, calculateCurrentYield, half_year_par_bond.
    cbn [faceValue annualCouponRate marketPrice yearsToMaturity couponFrequency].
    replace (100 * (5 / 100) / 100 / 1) with 0.05 by lra.
    unfold maxIterations. rewrite ytm_loop_step_resets.
    - apply ytm_loop_floor.
      apply (half_year_par_resets _ _ 1.000049996); unfold tolerance; lra.
    - apply (half_year_par_resets _ _ 1.024); unfold tolerance; lra. }
  assert (Hy : calculateYTM half_year_par_bond = 0.0001).
  { unfold calculateYTM. rewrite Hrun. simpl. lra. }
  split; [unfold valid_input; simpl; lra|].
  split; [reflexivity|]. split; [exact Hy|].
  rewrite Hy. simpl. unfold tolerance.
  rewrite Rabs_left by lra. lra.
Qed.

Lemma Rpower_succ (x y : R) : 0 < x -> Rpower x (y + 1) = Rpower x y * x.
Proof. intros Hx. rewrite Rpower_plus, Rpower_1 by exact Hx. reflexivity. Qed.

Lemma price_deriv_loop_sums (r C : R) (t rem : nat) (p d : R) :
  0 <= r ->
  price_deriv_loop r C t rem p d =
  (p + SpecYTM.sum (map (fun j => C / Rpower (1 + r) (INR j)) (seq t rem)),
   d - SpecYTM.sum (map (fun j => INR j * C / Rpower (1 + r) (INR j + 1)) (seq t rem))).
Proof.
  intros Hr. revert t p d.
  induction rem as [|rem IH]; intros t p d.
  - simpl. f_equal; ring.
  - rewrite price_deriv_loop_S, IH. cbn [seq map]. unfold SpecYTM.sum. cbn [fold_right].
    unfold Math_pow. rewrite Rpower_succ by lra.
    f_equal; ring.
Qed.

Lemma calculatePriceAndDerivative_spec (r C F n : R) :
  0 <= r ->
  calculatePriceAndDerivative r C F n = (SpecYTM.P C F n r, SpecYTM.dP C F n r).
Proof.
  intros Hr. unfold calculatePriceAndDerivative, SpecYTM.P, SpecYTM.dP, SpecYTM.periods.
  rewrite price_deriv_loop_sums by exact Hr. unfold loop_count, Math_pow.
  rewrite Rpower_succ by lra. f_equal; ring.
Qed.

Lemma ytm_loop_spec (C F p n : R) (k : nat) (r : R) :
  0 <= r -> fst (ytm_loop C F p n k r) = SpecYTM.iterate C F p n k r.
Proof.
  revert r. induction k as [|k IH]; intros r Hr; [reflexivity|].
  rewrite ytm_loop_S, calculatePriceAndDerivative_spec by exact Hr. simpl.
  unfold Math_abs, tolerance.
  destruct (Rlt_dec _ 1e-10); [reflexivity|].
  apply IH, newton_update_nonneg.
Qed.

(** C1: on every valid input, [calculateYTM] computes exactly the algorithm
    of the specification: [n = yearsToMaturity * couponFrequency] periods,
    coupon [C = faceValue * (annualCouponRate / 100) / couponFrequency],
    initial guess [(faceValue * annualCouponRate / 100 / marketPrice) /
    couponFrequency], at most 100 Newton iterations on [P] and [P'] that
    stop when [|P(r) - marketPrice| < 1e-10], reset negative guesses to
    0.0001, and the final guess multiplied by [couponFrequency]. *)
Theorem calculateYTM_refines_spec (i : BondInput) :
  valid_input i -> calculateYTM i = SpecYTM.ytm i.
Proof.
  intros Hv. pose proof (initial_guess_nonneg i Hv) as H0.
  destruct Hv as (HF & Hc & Hp & Hy & Hf).
  assert (Hf0 : couponFrequency i <> 0) by (destruct Hf as [-> | ->]; lra).
  unfold calculateYTM, ytm_run, SpecYTM.ytm.
  rewrite ytm_loop_spec by exact H0.
  unfold maxIterations, calculateCurrentYield.
  f_equal. f_equal. field. lra.
Qed.

Lemma calculateYTM_refines_spec_witness :
  valid_input (mkBondInput 1000 5 950 10 2) /\
  calculateYTM (mkBondInput 1000 5 950 10 2) = SpecYTM.ytm (mkBondInput 1000 5 950 10 2).
Proof.
  split; [unfold valid_input; simpl; lra|].
  apply calculateYTM_refines_spec. unfold valid_input; simpl; lra.
Defined.

(** * Witnesses on concrete bonds *)

Lemma sample_bond_valid : valid_input sample_bond.
Proof. unfold valid_input; simpl; lra. Qed.

Lemma schedule_length_floor_witness :
  valid_input sample_bond /\ length (generateCashFlowSchedule sample_bond) = 20%nat.
Proof.
  split; [exact sample_bond_valid|].
  apply (proj2 (schedule_length_floor sample_bond sample_bond_valid) 20%nat).
  simpl. lra.
Defined.

Lemma schedule_principal_witness :
  valid_input (mkBondInput 1000 5 950 2 1) /\
  map remainingPrincipal (generateCashFlowSchedule (mkBondInput 1000 5 950 2 1)) =
  repeat 1000 1 ++ [0].
Proof.
  assert (Hv : valid_input (mkBondInput 1000 5 950 2 1))
    by (unfold valid_input; simpl; lra).
  split; [exact Hv|].
  apply (proj1 (schedule_principal (mkBondInput 1000 5 950 2 1) Hv) 2%nat).
  simpl. lra.
Defined.

Lemma calculateYTM_nonneg_witness :
  valid_input sample_bond /\ 0 <= calculateYTM sample_bond.
Proof.
  split; [exact sample_bond_valid|].
  apply calculateYTM_nonneg. exact sample_bond_valid.
Defined.

(** * Rounding to cents *)

Lemma Int_part_le (x y : R) : x <= y -> (Int_part x <= Int_part y)%Z.
Proof.
  intros Hxy.
  destruct (base_Int_part x) as [Hx _]. destruct (base_Int_part y) as [_ Hy].
  apply Z.lt_succ_r. apply lt_IZR. rewrite succ_IZR. lra.
Qed.

Lemma Math_round_le (x y : R) : x <= y -> Math_round x <= Math_round y.
Proof. intros Hxy. unfold Math_round. apply IZR_le, Int_part_le. lra. Qed.

Lemma round2_le (x y : R) : x <= y -> round2 x <= round2 y.
Proof.
  intros Hxy. unfold round2, Rdiv. apply Rmult_le_compat_r; [lra|].
  apply Math_round_le. lra.
Qed.

Lemma Math_round_bounds (x : R) : x - / 2 < Math_round x <= x + / 2.
Proof. unfold Math_round. destruct (base_Int_part (x + / 2)). lra. Qed.

Lemma round2_bounds (x : R) : Rabs (round2 x - x) <= 0.005.
Proof.
  unfold round2. destruct (Math_round_bounds (x * 100)) as [Hlo Hhi].
  apply Rabs_le. lra.
Qed.

(** * More facts about the schedule loop *)

Lemma schedule_loop_period_months (F C n m : R) (start rem : nat) (cum : R) :
  map period (schedule_loop F C n m start rem cum) = seq start rem /\
  map paymentMonthsAhead (schedule_loop F C n m start rem cum) =
  map (fun p => INR p * m) (seq start rem).
Proof.
  revert start cum. induction rem as [|rem IH]; intros start cum.
  - split; reflexivity.
  - cbn [schedule_loop map seq period paymentMonthsAhead].
    destruct (IH (S start) (cum + C)) as [H1 H2]. now rewrite H1, H2.
Qed.

(** Every entry pays the rounded coupon and reports the running total of
    its own period, as long as the accumulator entering the loop at period
    [start] holds the coupons of the periods before it. *)
Lemma schedule_loop_entries (F C n m : R) (rem start : nat) (cum : R) :
  (1 <= start)%nat -> cum = INR (start - 1) * C ->
  Forall (fun e => couponPayment e = round2 C /\
                   cumulativeInterest e = round2 (INR (period e) * C))
    (schedule_loop F C n m start rem cum).
Proof.
  revert start cum. induction rem as [|rem IH]; intros start cum Hs Hcum.
  - constructor.
  - cbn [schedule_loop]. constructor.
    + cbn [couponPayment cumulativeInterest period]. split; [reflexivity|].
      unfold round2. do 3 f_equal. rewrite Hcum, minus_INR by exact Hs.
      change (INR 1) with 1. lra.
    + apply IH; [lia|]. rewrite Hcum. replace (S start - 1)%nat with start by lia.
      rewrite minus_INR by exact Hs. change (INR 1) with 1. lra.
Qed.

Lemma filter_all_false {A : Type} (f : A -> bool) (l : list A) :
  (forall x, In x l -> f x = false) -> filter f l = [].
Proof.
  induction l as [|a l IH]; intros Hf; [reflexivity|].
  simpl. rewrite (Hf a (or_introl eq_refl)). apply IH. intros x Hx. apply Hf. now right.
Qed.

Lemma schedule_loop_maturity_rows (F C n m : R) (start rem : nat) (cum : R) :
  F <> 0 ->
  map period (filter isMaturityRow (schedule_loop F C n m start rem cum)) =
  filter (fun p => if Req_EM_T (INR p) n then true else false) (seq start rem).
Proof.
  intros HF. revert start cum. induction rem as [|rem IH]; intros start cum.
  - reflexivity.
  - cbn [schedule_loop seq filter]. unfold isMaturityRow at 1.
    cbn [remainingPrincipal].
    destruct (Req_EM_T (INR start) n) as [E|E].
    + destruct (Req_EM_T 0 0) as [_|C0]; [|now contradiction C0].
      cbn [map period]. now rewrite IH.
    + destruct (Req_EM_T F 0) as [HF0|_]; [contradiction|]. apply IH.
Qed.

Lemma tableTotalInterest_last (s : list CashFlowEntry) :
  tableTotalInterest s = nth (length s - 1) (map cumulativeInterest s) 0.
Proof.
  unfold tableTotalInterest. destruct s as [|e s'] using rev_ind; [reflexivity|].
  rewrite length_app. simpl length. replace (length s' + 1 - 1)%nat with (length s') by lia.
  rewrite nth_error_app2, Nat.sub_diag by lia. simpl.
  rewrite map_app, app_nth2; rewrite length_map; [|lia].
  rewrite Nat.sub_diag. reflexivity.
Qed.

Lemma coupon_per_period_nonneg (i : BondInput) :
  valid_input i -> 0 <= (faceValue i * (annualCouponRate i / 100)) / couponFrequency i.
Proof.
  intros (HF & Hc & _ & _ & Hf).
  assert (Hf0 : 0 < couponFrequency i) by (destruct Hf as [-> | ->]; lra).
  apply Rmult_le_pos; [apply Rmult_le_pos; [lra|]|].
  - apply Rmult_le_pos; [lra|]. left. apply Rinv_0_lt_compat. lra.
  - left. now apply Rinv_0_lt_compat.
Qed.

Lemma calculateBond_fields (i : BondInput) :
  currentYield (calculateBond i) = calculateCurrentYield i /\
  yieldToMaturity (calculateBond i) = calculateYTM i /\
  totalInterestEarned (calculateBond i) = calculateTotalInterest i /\
  premiumDiscount (calculateBond i) = fst (calculatePremiumDiscount i) /\
  premiumDiscountAmount (calculateBond i) = snd (calculatePremiumDiscount i) /\
  cashFlowSchedule (calculateBond i) = generateCashFlowSchedule i.
Proof.
  unfold calculateBond. destruct (calculatePremiumDiscount i). repeat split.
Qed.

Lemma sorted_rounded_totals (C : R) (start len : nat) :
  0 <= C -> Sorted Rle (map (fun j => round2 (INR j * C)) (seq start len)).
Proof.
  intros HC. revert start. induction len as [|len IH]; intros start.
  - constructor.
  - cbn [seq map]. constructor; [apply IH|].
    destruct len as [|len]; [constructor|]. cbn [seq map]. constructor.
    apply round2_le. rewrite S_INR. nra.
Qed.

Lemma last_seq_map {B : Type} (g : nat -> B) (k : nat) (d : B) :
  (1 <= k)%nat -> last (map g (seq 1 k)) d = g k.
Proof.
  intros Hk. destruct k as [|k]; [lia|].
  rewrite seq_S, map_app. cbn [map]. rewrite last_last. reflexivity.
Qed.

Lemma whole_periods_pos (i : BondInput) (k : nat) :
  valid_input i -> yearsToMaturity i * couponFrequency i = INR k -> (1 <= k)%nat.
Proof.
  intros Hv Hk. pose proof (valid_periods_pos i Hv) as Hp. rewrite Hk in Hp.
  destruct k; [simpl in Hp; lra | lia].
Qed.

(** The whole [k] is the only period [p] of [1 .. k] with [INR p = INR k]. *)
Lemma filter_last_period (k : nat) :
  (1 <= k)%nat ->
  filter (fun p => if Req_EM_T (INR p) (INR k) then true else false) (seq 1 k) = [k].
Proof.
  intros Hk. destruct k as [|k']; [lia|].
  rewrite seq_S, filter_app. replace (1 + k')%nat with (S k') by lia.
  rewrite filter_all_false.
  - cbn [filter app]. destruct (Req_EM_T (INR (S k')) (INR (S k'))) as [_|Ne];
      [reflexivity | now contradiction Ne].
  - intros p Hp. apply in_seq in Hp.
    destruct (Req_EM_T (INR p) (INR (S k'))) as [E|_]; [|reflexivity].
    apply INR_eq in E. lia.
Qed.

(** * More facts about pricing and the Newton loop *)

Lemma Rpower_1_base (y : R) : Rpower 1 y = 1.
Proof. unfold Rpower. rewrite ln_1, Rmult_0_r. apply exp_0. Qed.

Lemma price_deriv_loop_zero (C : R) (t rem : nat) (p d : R) :
  price_deriv_loop 0 C t rem p d =
  (p + INR rem * C, d - C * (INR rem * INR t + INR rem * (INR rem - 1) / 2)).
Proof.
  revert t p d. induction rem as [|rem IH]; intros t p d.
  - cbn [price_deriv_loop INR]. f_equal; field.
  - rewrite price_deriv_loop_S, IH. unfold Math_pow.
    rewrite Rplus_0_r, Rpower_1_base, !S_INR. f_equal; field.
Qed.

Lemma price_deriv_loop_price_le (r1 r2 C : R) (t rem : nat) (p1 p2 d1 d2 : R) :
  0 <= r1 <= r2 -> 0 <= C -> p2 <= p1 ->
  fst (price_deriv_loop r2 C t rem p2 d2) <= fst (price_deriv_loop r1 C t rem p1 d1).
Proof.
  intros Hr HC. revert t p1 p2 d1 d2.
  induction rem as [|rem IH]; intros t p1 p2 d1 d2 Hp; [exact Hp|].
  rewrite !price_deriv_loop_S. apply IH.
  assert (C / Math_pow (1 + r2) (INR t) <= C / Math_pow (1 + r1) (INR t)).
  { unfold Rdiv. apply Rmult_le_compat_l; [lra|].
    apply Rinv_le_contravar; [apply Math_pow_pos|].
    unfold Math_pow. apply Rle_Rpower_l; [apply pos_INR | lra]. }
  lra.
Qed.

Lemma ytm_loop_converged (C F p n : R) (fuel : nat) (r : R) :
  snd (ytm_loop C F p n fuel r) = Converged ->
  Math_abs (fst (calculatePriceAndDerivative (fst (ytm_loop C F p n fuel r)) C F n) - p)
    < tolerance.
Proof.
  revert r. induction fuel as [|fuel IH]; intros r; [discriminate|].
  rewrite ytm_loop_S.
  destruct (calculatePriceAndDerivative r C F n) as [price derivative] eqn:E.
  destruct (Rlt_dec (Math_abs (price - p)) tolerance) as [Hlt|_].
  - intros _. cbn [fst]. now rewrite E.
  - apply IH.
Qed.

Lemma one_period_par_bond_valid : valid_input one_period_par_bond.
Proof. unfold valid_input; simpl; lra. Qed.

Lemma one_period_par_bond_converges : snd (ytm_run one_period_par_bond) = Converged.
Proof.
  unfold ytm_run, calculateCurrentYield, one_period_par_bond, maxIterations.
  cbn [faceValue annualCouponRate marketPrice yearsToMaturity couponFrequency].
  replace (1 * 1) with 1 by lra.
  rewrite ytm_loop_S, one_period_price_deriv.
  - replace ((100 * (5 / 100) / 1 + 100) / (1 + 100 * (5 / 100) / 100 / 1) - 100) with 0
      by (field; lra).
    destruct (Rlt_dec (Math_abs 0) tolerance) as [_|Hn]; [reflexivity|].
    exfalso. apply Hn. unfold Math_abs, tolerance. rewrite Rabs_R0. lra.
  - unfold Rdiv. apply Rmult_le_pos; [|lra].
    apply Rmult_le_pos; [|left; apply Rinv_0_lt_compat; lra].
    apply Rmult_le_pos; [lra|]. left. apply Rmult_lt_0_compat; [lra|].
    apply Rinv_0_lt_compat; lra.
Qed.

(** * Frontend state *)

Definition hook_inv (s : HookState) : Prop :=
  (result s = None \/ error s = None) /\ (isLoading s = true -> error s = None).

Lemma hook_step_inv (s s' : HookState) : hook_inv s -> hook_step s s' -> hook_inv s'.
Proof.
  intros [Hre HL] Hst. destruct Hst as [s field value | s | s HF | s [r | t] HT]; cbn.
  - split; [now right | reflexivity].
  - split; [now left | reflexivity].
  - split; [now right | reflexivity].
  - split; [right; now apply HL | discriminate].
  - split; [now left | discriminate].
Qed.

Lemma reachable_inv (s : HookState) : reachable s -> hook_inv s.
Proof.
  induction 1 as [|s s' _ IH Hst].
  - split; [now left | discriminate].
  - exact (hook_step_inv s s' IH Hst).
Qed.

(** * Further properties of the service *)

(** X1: with a positive coupon rate, the current yield strictly falls as
    the market price rises, the other inputs fixed. *)
Theorem currentYield_decreasing_in_price (F c p1 p2 y f : R) :
  0 < F -> 0 < c -> 0 < p1 < p2 ->
  calculateCurrentYield (mkBondInput F c p2 y f) <
  calculateCurrentYield (mkBondInput F c p1 y f).
Proof.
  intros HF Hc Hp. unfold calculateCurrentYield. cbn.
  assert (HA : 0 < F * (c / 100)).
  { apply Rmult_lt_0_compat; [lra|]. unfold Rdiv.
    apply Rmult_lt_0_compat; [lra | apply Rinv_0_lt_compat; lra]. }
  unfold Rdiv. apply Rmult_lt_compat_l; [exact HA|].
  apply Rinv_lt_contravar; [apply Rmult_lt_0_compat|]; lra.
Qed.

Lemma currentYield_decreasing_in_price_witness :
  calculateCurrentYield (mkBondInput 1000 5 1050 10 2) <
  calculateCurrentYield (mkBondInput 1000 5 950 10 2).
Proof. apply currentYield_decreasing_in_price; lra. Defined.

(** X2: at yield 0, [calculatePriceAndDerivative] prices the bond at the
    plain sum of its payments, [k] coupons plus the face value, where [k]
    is the number of coupon-loop passes; its derivative there is
    [-(C * k (k + 1) / 2) - totalPeriods * F]. *)
Theorem price_at_zero_yield (C F n : R) :
  let k := INR (loop_count n) in
  calculatePriceAndDerivative 0 C F n =
  (k * C + F, - (C * (k * (k + 1) / 2)) - n * F).
Proof.
  cbv zeta. unfold calculatePriceAndDerivative.
  rewrite price_deriv_loop_zero. unfold Math_pow.
  rewrite Rplus_0_r, Rpower_1_base. cbn [INR]. f_equal; field.
Qed.

(** X3: for a positive face value, a non-negative coupon and a positive
    period count, the price computed by [calculatePriceAndDerivative] is
    strictly decreasing in the yield over [yield >= 0]. *)
Theorem price_decreasing_in_yield (r1 r2 C F n : R) :
  0 < F -> 0 <= C -> 0 < n -> 0 <= r1 < r2 ->
  fst (calculatePriceAndDerivative r2 C F n) <
  fst (calculatePriceAndDerivative r1 C F n).
Proof.
  intros HF HC Hn Hr. unfold calculatePriceAndDerivative.
  pose proof (price_deriv_loop_price_le r1 r2 C 1 (loop_count n) 0 0 0 0
                ltac:(lra) HC (Rle_refl 0)) as Hle.
  destruct (price_deriv_loop r1 C 1 (loop_count n) 0 0) as [a1 b1].
  destruct (price_deriv_loop r2 C 1 (loop_count n) 0 0) as [a2 b2].
  cbn [fst] in *.
  assert (F / Math_pow (1 + r2) n < F / Math_pow (1 + r1) n).
  { unfold Rdiv. apply Rmult_lt_compat_l; [exact HF|].
    apply Rinv_lt_contravar.
    - apply Rmult_lt_0_compat; apply Math_pow_pos.
    - unfold Math_pow. apply Rlt_Rpower_l; lra. }
  lra.
Qed.

Lemma price_decreasing_in_yield_witness :
  fst (calculatePriceAndDerivative 0.05 25 1000 20) <
  fst (calculatePriceAndDerivative 0 25 1000 20).
Proof. apply price_decreasing_in_yield; lra. Defined.

(** X4: when [calculateYTM] leaves its loop by convergence, the per-period
    yield it returns ([yieldToMaturity / couponFrequency]) prices the bond
    within [1e-10] of the market price. *)
Theorem converged_ytm_prices_bond (i : BondInput) :
  valid_input i -> snd (ytm_run i) = Converged ->
  let n := yearsToMaturity i * couponFrequency i in
  let C := (faceValue i * (annualCouponRate i / 100)) / couponFrequency i in
  Math_abs (fst (calculatePriceAndDerivative (calculateYTM i / couponFrequency i)
                   C (faceValue i) n) - marketPrice i) < tolerance.
Proof.
  intros Hv Hc. cbv zeta.
  assert (Hf : couponFrequency i <> 0)
    by (destruct Hv as (_ & _ & _ & _ & [-> | ->]); lra).
  unfold calculateYTM. replace (fst (ytm_run i) * couponFrequency i / couponFrequency i)
    with (fst (ytm_run i)) by (field; exact Hf).
  unfold ytm_run in *. now apply ytm_loop_converged.
Qed.

Lemma converged_ytm_prices_bond_witness :
  valid_input one_period_par_bond /\ snd (ytm_run one_period_par_bond) = Converged /\
  Math_abs (fst (calculatePriceAndDerivative
                   (calculateYTM one_period_par_bond / 1) (100 * (5 / 100) / 1) 100 (1 * 1))
            - 100) < tolerance.
Proof.
  split; [exact one_period_par_bond_valid|].
  split; [exact one_period_par_bond_converges|].
  exact (converged_ytm_prices_bond one_period_par_bond one_period_par_bond_valid
           one_period_par_bond_converges).
Defined.

(** * Further properties of the schedule *)

Lemma schedule_period_months (i : BondInput) :
  let s := generateCashFlowSchedule i in
  map period s = seq 1 (length s) /\
  map paymentMonthsAhead s =
  map (fun p => INR p * (12 / couponFrequency i)) (seq 1 (length s)).
Proof.
  cbv zeta. rewrite schedule_length. unfold generateCashFlowSchedule.
  apply schedule_loop_period_months.
Qed.

(** X6: when the period count [yearsToMaturity * couponFrequency] is a
    whole number, the last payment falls [12 * yearsToMaturity] months from
    today, at maturity. *)
Theorem last_payment_at_maturity (i : BondInput) (k : nat) :
  valid_input i -> yearsToMaturity i * couponFrequency i = INR k ->
  last (map paymentMonthsAhead (generateCashFlowSchedule i)) 0 =
  12 * yearsToMaturity i.
Proof.
  intros Hv Hk. pose proof (whole_periods_pos i k Hv Hk) as Hk1.
  assert (Hf : couponFrequency i <> 0)
    by (destruct Hv as (_ & _ & _ & _ & [-> | ->]); lra).
  rewrite (proj2 (schedule_period_months i)), schedule_length.
  rewrite Hk, loop_count_INR, last_seq_map by exact Hk1.
  rewrite <- Hk. field. exact Hf.
Qed.

Lemma last_payment_at_maturity_witness :
  valid_input sample_bond /\ 10 * 2 = INR 20 /\
  last (map paymentMonthsAhead (generateCashFlowSchedule sample_bond)) 0 = 12 * 10.
Proof.
  split; [exact sample_bond_valid|]. split; [simpl; lra|].
  apply (last_payment_at_maturity sample_bond 20 sample_bond_valid). simpl. lra.
Defined.

(** X7: every entry's [couponPayment] is within half a cent of
    [couponPerPeriod], and its [cumulativeInterest] within half a cent of
    [period * couponPerPeriod]. *)
Theorem schedule_within_half_cent (i : BondInput) :
  let C := (faceValue i * (annualCouponRate i / 100)) / couponFrequency i in
  Forall (fun e => Rabs (couponPayment e - C) <= 0.005 /\
                   Rabs (cumulativeInterest e - INR (period e) * C) <= 0.005)
    (generateCashFlowSchedule i).
Proof.
  cbv zeta. unfold generateCashFlowSchedule.
  eapply Forall_impl; [|apply schedule_loop_entries; [lia | simpl; lra]].
  intros e [Hc Hcum]. rewrite Hc, Hcum. split; apply round2_bounds.
Qed.

(** X8: for a valid input the [cumulativeInterest] column never
    decreases from one entry to the next. *)
Theorem cumulative_interest_sorted (i : BondInput) :
  valid_input i -> Sorted Rle (map cumulativeInterest (generateCashFlowSchedule i)).
Proof.
  intros Hv. rewrite (proj2 (schedule_coupons i)).
  apply sorted_rounded_totals, coupon_per_period_nonneg, Hv.
Qed.

Lemma cumulative_interest_sorted_witness :
  valid_input sample_bond /\
  Sorted Rle (map cumulativeInterest (generateCashFlowSchedule sample_bond)).
Proof.
  split; [exact sample_bond_valid|].
  apply cumulative_interest_sorted. exact sample_bond_valid.
Defined.

(** * The result as the frontend shows it *)

(** X9: the Total Interest of the [CashFlowTable] summary (the last
    entry's [cumulativeInterest]) never exceeds [totalInterestEarned]
    rounded to cents, and equals it when the period count is a whole
    number. *)
Theorem table_total_interest (i : BondInput) :
  valid_input i ->
  let r := calculateBond i in
  tableTotalInterest (cashFlowSchedule r) <= round2 (totalInterestEarned r) /\
  (forall k : nat, yearsToMaturity i * couponFrequency i = INR k ->
     tableTotalInterest (cashFlowSchedule r) = round2 (totalInterestEarned r)).
Proof.
  intros Hv. cbv zeta.
  destruct (calculateBond_fields i) as (_ & _ & -> & _ & _ & ->).
  set (C := (faceValue i * (annualCouponRate i / 100)) / couponFrequency i).
  assert (Hf : couponFrequency i <> 0)
    by (destruct Hv as (_ & _ & _ & _ & [-> | ->]); lra).
  assert (HT : calculateTotalInterest i = yearsToMaturity i * couponFrequency i * C).
  { unfold calculateTotalInterest, C. field. exact Hf. }
  assert (HL : tableTotalInterest (generateCashFlowSchedule i) =
               round2 (INR (length (generateCashFlowSchedule i)) * C)).
  { rewrite tableTotalInterest_last, (proj2 (schedule_coupons i)). fold C.
    destruct (length (generateCashFlowSchedule i)) as [|L].
    - simpl. rewrite Rmult_0_l. symmetry. apply round2_zero.
    - replace (S L - 1)%nat with L by lia.
      rewrite seq_S, map_app, app_nth2; rewrite length_map, length_seq; [|lia].
      rewrite Nat.sub_diag. reflexivity. }
  rewrite HL, HT. split.
  - apply round2_le. apply Rmult_le_compat_r; [apply coupon_per_period_nonneg, Hv|].
    rewrite schedule_length. apply loop_count_floor, valid_periods_pos, Hv.
  - intros k Hk. rewrite schedule_length, Hk, loop_count_INR. reflexivity.
Qed.

Lemma table_total_interest_witness :
  valid_input sample_bond /\
  tableTotalInterest (cashFlowSchedule (calculateBond sample_bond)) =
  round2 (totalInterestEarned (calculateBond sample_bond)).
Proof.
  split; [exact sample_bond_valid|].
  apply (proj2 (table_total_interest sample_bond sample_bond_valid) 20%nat).
  simpl. lra.
Defined.

(** X10: for a valid input, when the period count is a whole number [k]
    the [CashFlowTable] marks exactly one row as the maturity row, the row
    of period [k]; otherwise it marks none. *)
Theorem maturity_row_marking (i : BondInput) :
  valid_input i ->
  let s := cashFlowSchedule (calculateBond i) in
  (forall k : nat, yearsToMaturity i * couponFrequency i = INR k ->
     map period (filter isMaturityRow s) = [k]) /\
  ((forall k : nat, yearsToMaturity i * couponFrequency i <> INR k) ->
     filter isMaturityRow s = []).
Proof.
  intros Hv. cbv zeta.
  destruct (calculateBond_fields i) as (_ & _ & _ & _ & _ & ->).
  assert (HF : faceValue i <> 0) by (destruct Hv as (HF & _); lra).
  unfold generateCashFlowSchedule.
  split.
  - intros k Hk. rewrite schedule_loop_maturity_rows by exact HF.
    rewrite Hk, loop_count_INR.
    apply filter_last_period. apply (whole_periods_pos i k Hv Hk).
  - intros Hnot. apply map_eq_nil with (f := period).
    rewrite schedule_loop_maturity_rows by exact HF.
    apply filter_all_false. intros p _.
    destruct (Req_EM_T (INR p) _) as [E|_]; [|reflexivity].
    exfalso. apply (Hnot p). now rewrite E.
Qed.

Lemma maturity_row_marking_witness :
  valid_input sample_bond /\
  map period (filter isMaturityRow (cashFlowSchedule (calculateBond sample_bond))) = [20%nat].
Proof.
  split; [exact sample_bond_valid|].
  apply (proj1 (maturity_row_marking sample_bond sample_bond_valid) 20%nat).
  simpl. lra.
Defined.

(** X11: with [d = marketPrice - faceValue], the Bond Status card shows no
    amount line when [|d| < 0.01], the line [+d] when [d >= 0.01] and the
    line [-(-d)] (a positive amount) when [d <= -0.01]. *)
Theorem status_amount_line (i : BondInput) :
  let d := marketPrice i - faceValue i in
  let line := statusAmountLine (calculateBond i) in
  (Rabs d < 0.01 -> line = None) /\
  (0.01 <= d -> line = Some ("+"%string, d)) /\
  (d <= -0.01 -> line = Some ("-"%string, - d)).
Proof.
  cbv zeta. unfold statusAmountLine.
  destruct (calculateBond_fields i) as (_ & _ & _ & -> & -> & _).
  unfold calculatePremiumDiscount, Math_abs. cbv zeta.
  set (d := marketPrice i - faceValue i).
  destruct (Rlt_dec (Rabs d) 0.01) as [Hs|Hs];
    [|destruct (Rlt_dec 0 d) as [Hp|Hp]]; cbn [fst snd].
  - destruct (Rlt_dec 0 0) as [H0|_]; [lra|].
    split; [reflexivity|]. split; intros H; exfalso; apply Rabs_def2 in Hs; lra.
  - destruct (Rlt_dec 0 d) as [_|Hn]; [|lra].
    split; [intros; contradiction|]. split; [reflexivity | intros; lra].
  - split; [intros H; contradiction|].
    assert (Hn : 0.01 <= - d) by (rewrite Rabs_left1 in Hs by lra; lra).
    rewrite (Rabs_left1 d) by lra.
    destruct (Rlt_dec 0 (- d)) as [_|Hn']; [|lra].
    split; [intros; lra | reflexivity].
Qed.

(** X12: the style class of the Bond Status card is [status-par] exactly
    when [|marketPrice - faceValue| < 0.01], [status-premium] exactly when
    [marketPrice - faceValue >= 0.01] and [status-discount] exactly when
    [marketPrice - faceValue <= -0.01]. *)
Theorem status_class (i : BondInput) :
  let d := marketPrice i - faceValue i in
  let cls := getPremiumDiscountClass (calculateBond i) in
  (cls = "status-par"%string <-> Rabs d < 0.01) /\
  (cls = "status-premium"%string <-> 0.01 <= d) /\
  (cls = "status-discount"%string <-> d <= -0.01).
Proof.
  cbv zeta. unfold getPremiumDiscountClass.
  destruct (calculateBond_fields i) as (_ & _ & _ & -> & _ & _).
  unfold calculatePremiumDiscount, Math_abs. cbv zeta.
  set (d := marketPrice i - faceValue i).
  destruct (Rlt_dec (Rabs d) 0.01) as [Hs|Hs];
    [|destruct (Rlt_dec 0 d) as [Hp|Hp]]; cbn [fst].
  - apply Rabs_def2 in Hs as Hb.
    split; [split; [intros _; exact Hs | reflexivity]|].
    split; split; intros H; try discriminate; lra.
  - assert (Hb : 0.01 <= d) by (rewrite Rabs_right in Hs by lra; lra).
    split; [split; [discriminate | intros H; lra]|].
    split; split; intros H; try discriminate; try reflexivity; lra.
  - assert (Hb : d <= -0.01) by (rewrite Rabs_left1 in Hs by lra; lra).
    split; [split; [discriminate | intros H; apply Rabs_def2 in H; lra]|].
    split; split; intros H; try discriminate; try reflexivity; lra.
Qed.

(** X13: in every state the hook can reach, with edits and resets also
    while a request is pending, the result and the error are never both
    set; while a request is pending the results column of [App] shows only
    the loading panel, and otherwise exactly one panel: the error, the
    results or the empty state. *)
Theorem app_shows_one_panel (s : HookState) :
  reachable s ->
  (result s = None \/ error s = None) /\
  (isLoading s = true -> appPanels s = [LoadingPanel]) /\
  (isLoading s = false ->
     appPanels s = [ErrorPanel] \/ appPanels s = [ResultsPanel] \/
     appPanels s = [EmptyPanel]).
Proof.
  intros Hr. destruct (reachable_inv s Hr) as [Hre HL].
  split; [exact Hre|].
  destruct s as [inp res loading err]. cbn in *.
  unfold appPanels, error_truthy, result_truthy. cbn.
  split.
  - intros ->. rewrite (HL eq_refl). destruct res; reflexivity.
  - intros ->.
    destruct res as [r|]; destruct err as [m|];
      try (destruct Hre as [H|H]; discriminate H); cbn;
      try destruct (String.eqb m EmptyString); cbn;
      first [now left | now right; left | now right; right].
Qed.

Lemma app_shows_one_panel_witness :
  let s := reset (calculate_start initialHookState) in
  reachable s /\ appPanels s = [LoadingPanel].
Proof.
  cbv zeta.
  assert (Hr : reachable (reset (calculate_start initialHookState))).
  { apply (reachable_step (calculate_start initialHookState)); [|apply step_reset].
    apply (reachable_step initialHookState); [apply reachable_init|].
    apply step_calculate. reflexivity. }
  split; [exact Hr|].
  apply (app_shows_one_panel _ Hr). reflexivity.
Defined.



(** * Monotonicity of converged solves *)

Lemma price_le_in_yield (r1 r2 C F n : R) :
  0 <= F -> 0 <= C -> 0 <= n -> 0 <= r1 <= r2 ->
  fst (calculatePriceAndDerivative r2 C F n) <=
  fst (calculatePriceAndDerivative r1 C F n).
Proof.
  intros HF HC Hn Hr. unfold calculatePriceAndDerivative.
  pose proof (price_deriv_loop_price_le r1 r2 C 1 (loop_count n) 0 0 0 0
                Hr HC (Rle_refl 0)) as Hle.
  destruct (price_deriv_loop r1 C 1 (loop_count n) 0 0) as [a1 b1].
  destruct (price_deriv_loop r2 C 1 (loop_count n) 0 0) as [a2 b2].
  cbn [fst] in *.
  assert (F / Math_pow (1 + r2) n <= F / Math_pow (1 + r1) n).
  { unfold Rdiv. apply Rmult_le_compat_l; [exact HF|].
    apply Rinv_le_contravar; [apply Math_pow_pos|].
    unfold Math_pow. apply Rle_Rpower_l; lra. }
  lra.
Qed.

Lemma zero_coupon_par_converges : snd (ytm_run zero_coupon_par) = Converged.
Proof.
  unfold ytm_run, calculateCurrentYield, zero_coupon_par, maxIterations.
  cbn [faceValue annualCouponRate marketPrice yearsToMaturity couponFrequency].
  replace (1 * 1) with 1 by lra.
  replace (1 * (0 / 100) / 1 / 1) with 0 by (unfold Rdiv; ring).
  replace (1 * (0 / 100) / 1) with 0 by (unfold Rdiv; ring).
  rewrite ytm_loop_S, one_period_price_deriv by lra.
  replace ((0 + 1) / (1 + 0) - 1) with 0 by field.
  destruct (Rlt_dec (Math_abs 0) tolerance) as [_|Hn]; [reflexivity|].
  exfalso. apply Hn. unfold Math_abs, tolerance. rewrite Rabs_R0. lra.
Qed.

Lemma zero_coupon_discount_converges : snd (ytm_run zero_coupon_discount) = Converged.
Proof.
  unfold ytm_run, calculateCurrentYield, zero_coupon_discount, maxIterations.
  cbn [faceValue annualCouponRate marketPrice yearsToMaturity couponFrequency].
  replace (1 * 1) with 1 by lra.
  replace (1 * (0 / 100) / (999999 / 1000000) / 1) with 0 by (unfold Rdiv; ring).
  replace (1 * (0 / 100) / 1) with 0 by (unfold Rdiv; ring).
  rewrite ytm_loop_S, one_period_price_deriv by lra.
  replace ((0 + 1) / (1 + 0) - 999999 / 1000000) with (1 / 1000000) by field.
  destruct (Rlt_dec (Math_abs (1 / 1000000)) tolerance) as [Hlt|_].
  { exfalso. unfold Math_abs, tolerance in Hlt. rewrite Rabs_right in Hlt by lra. lra. }
  unfold newton_update.
  replace (0 - ((0 + 1) / (1 + 0) - 999999 / 1000000) /
               (- (0 + 1) / ((1 + 0) * (1 + 0)))) with (1 / 1000000) by field.
  destruct (Rlt_dec (1 / 1000000) 0) as [Hneg|_]; [lra|].
  rewrite ytm_loop_S, one_period_price_deriv by lra.
  replace ((0 + 1) / (1 + 1 / 1000000) - 999999 / 1000000)
    with (1 / 1000001000000) by field.
  destruct (Rlt_dec (Math_abs (1 / 1000001000000)) tolerance) as [_|Hn]; [reflexivity|].
  exfalso. apply Hn. unfold Math_abs, tolerance. rewrite Rabs_right by lra. lra.
Qed.

(** C6 (amended): [yieldToMaturity] is not strictly decreasing over all
    valid market prices (negative guesses are reset to 0.0001), but it is
    between converged solves: for two valid inputs that differ only in the
    market price, with [p1 + 2 * 1e-10 <= p2], if both runs of the loop
    exit by convergence then the yield at [p2] is strictly less than the
    yield at [p1]. *)
Theorem ytm_decreasing_when_converged (F c y f p1 p2 : R) :
  valid_input (mkBondInput F c p1 y f) -> valid_input (mkBondInput F c p2 y f) ->
  snd (ytm_run (mkBondInput F c p1 y f)) = Converged ->
  snd (ytm_run (mkBondInput F c p2 y f)) = Converged ->
  p1 + 2 * tolerance <= p2 ->
  calculateYTM (mkBondInput F c p2 y f) < calculateYTM (mkBondInput F c p1 y f).
Proof.
  intros Hv1 Hv2 Hc1 Hc2 Hp.
  pose proof (initial_guess_nonneg _ Hv1) as Hg1.
  pose proof (initial_guess_nonneg _ Hv2) as Hg2.
  pose proof (coupon_per_period_nonneg _ Hv1) as HC.
  pose proof (valid_periods_pos _ Hv1) as Hn.
  assert (Hf : 0 < f) by (destruct Hv1 as (_ & _ & _ & _ & [Hf | Hf]); cbn in Hf; lra).
  assert (HF : 0 < F) by (destruct Hv1 as (HF & _); exact HF).
  cbn [faceValue annualCouponRate marketPrice yearsToMaturity couponFrequency] in *.
  unfold calculateYTM, ytm_run in *.
  cbn [faceValue annualCouponRate marketPrice yearsToMaturity couponFrequency] in *.
  set (C := F * (c / 100) / f) in *.
  set (run1 := ytm_loop C F p1 (y * f) maxIterations _) in *.
  set (run2 := ytm_loop C F p2 (y * f) maxIterations _) in *.
  assert (Hr1 : 0 <= fst run1) by (apply ytm_loop_nonneg; exact Hg1).
  assert (Hr2 : 0 <= fst run2) by (apply ytm_loop_nonneg; exact Hg2).
  pose proof (ytm_loop_converged C F p1 (y * f) _ _ Hc1) as Hp1.
  pose proof (ytm_loop_converged C F p2 (y * f) _ _ Hc2) as Hp2.
  fold run1 in Hp1. fold run2 in Hp2.
  apply Rmult_lt_compat_r; [exact Hf|].
  apply Rnot_le_lt. intros Hle.
  pose proof (price_le_in_yield (fst run1) (fst run2) C F (y * f)
                ltac:(lra) HC ltac:(lra) ltac:(lra)) as Hmono.
  unfold Math_abs in Hp1, Hp2. apply Rabs_def2 in Hp1. apply Rabs_def2 in Hp2.
  unfold tolerance in *. lra.
Qed.

Lemma ytm_decreasing_when_converged_witness :
  valid_input zero_coupon_discount /\ valid_input zero_coupon_par /\
  snd (ytm_run zero_coupon_discount) = Converged /\
  snd (ytm_run zero_coupon_par) = Converged /\
  calculateYTM zero_coupon_par < calculateYTM zero_coupon_discount.
Proof.
  assert (Hv1 : valid_input zero_coupon_discount) by (unfold valid_input; simpl; lra).
  assert (Hv2 : valid_input zero_coupon_par) by (unfold valid_input; simpl; lra).
  split; [exact Hv1|]. split; [exact Hv2|].
  split; [exact zero_coupon_discount_converges|].
  split; [exact zero_coupon_par_converges|].
  apply (ytm_decreasing_when_converged 1 0 1 1 (999999 / 1000000) 1 Hv1 Hv2
           zero_coupon_discount_converges zero_coupon_par_converges).
  unfold tolerance. lra.
Defined.
